(** * Phaser.GameObjects.Mesh: a shallow embedding of [src/gameobjects/mesh/Mesh.js]

    The Mesh game object owns two JavaScript arrays, [faces] and [vertices],
    whose entries are references to [Face] and [Vertex] objects.  The
    embedding keeps the object store explicit: [new Vertex(..)] and
    [new Face(..)] allocate a fresh location, the arrays hold locations, and a
    Face holds the three JavaScript values it was constructed with.  Numbers
    are rationals; reading an array out of its range yields [Undefined], as in
    JavaScript. *)

From Stdlib Require Import QArith.
From stdpp Require Import base list strings.

Open Scope nat_scope.

(** ** JavaScript values and the object store *)

Definition loc := nat.

(** [Obj l] refers to a Vertex or Face of the store; [Ext name] to an object
    kept elsewhere (the animation state, a camera, a Graphics instance, a
    callback). *)
Inductive value :=
  | Undefined
  | Null
  | Num (q : Q)
  | Obj (l : loc)
  | Ext (name : string).

(** A [Vertex] as constructed by [new Vertex(x, y, u, v, color, alpha)]. *)
Record Vertex := mkVertex {
  x : value; y : value; u : value; v : value; color : value; alpha : value
}.

(** Modelled from the spec: the Face class (Face.js is not part of the
    sources at hand).  "Face — attributes: three Vertex references (v1, v2,
    v3)": the constructor stores its three arguments. *)
Record Face := mkFace { vertex1 : value; vertex2 : value; vertex3 : value }.

Inductive object :=
  | OVertex (vx : Vertex)
  | OFace (f : Face).

(** The store: location [l] is the [l]-th allocated object. *)
Abbreviation heap := (list object).

Definition alloc (o : object) (h : heap) : loc * heap := (length h, h ++ [o]).

(** ** Array reads *)

(** [a[i]] for a number array and a non-negative integer key. *)
Definition aget (a : list Q) (i : nat) : value :=
  match a !! i with
  | Some q => Num q
  | None => Undefined
  end.

(** [a[k]] for an integer key that may be negative. *)
Definition aget_z (a : list Q) (k : Z) : value :=
  if (k <? 0)%Z then Undefined else aget a (Z.to_nat k).

(** ** The Mesh object and the program state *)

Record Mesh := mkMesh {
  anims : value;
  faces : list loc;
  vertices : list loc;
  tintFill : bool;
  debugCallback : value;
  debugGraphic : value;
  scene_sys_cameras_main : value
}.

Record State := mkState { store : heap; this : Mesh }.

Definition set_faces (fs : list loc) (m : Mesh) : Mesh :=
  mkMesh (anims m) fs (vertices m) (tintFill m) (debugCallback m)
         (debugGraphic m) (scene_sys_cameras_main m).

Definition set_vertices (vs : list loc) (m : Mesh) : Mesh :=
  mkMesh (anims m) (faces m) vs (tintFill m) (debugCallback m)
         (debugGraphic m) (scene_sys_cameras_main m).

(** How a call completes: normally, or by [throw new Error(msg)]. *)
Inductive completion :=
  | Normal
  | Throw (msg : string).

(** ** [for (i = start; i < n; i += step) body]

    The counter grows by [step] each round, so [n] rounds of fuel are enough
    whenever [step] is positive (lemma [for_loop_inv] below). *)
Fixpoint for_loop {A : Type} (fuel n step : nat) (body : nat → A → A)
    (i : nat) (s : A) : A :=
  match fuel with
  | 0 => s
  | S fuel' =>
      if i <? n then for_loop fuel' n step body (i + step) (body i s) else s
  end.

Definition for_ {A : Type} (n step : nat) (body : nat → A → A) (s : A) : A :=
  for_loop n n step body 0 s.

(** ** addVertices *)

(** The optional [colors] / [alphas] argument: omitted, a number, or an array. *)
Inductive arg :=
  | ArgUndefined
  | ArgNumber (q : Q)
  | ArgArray (a : list Q).

(** [if (colors === undefined) { colors = d; }] *)
Definition or_default (a : arg) (d : Q) : arg :=
  match a with
  | ArgUndefined => ArgNumber d
  | _ => a
  end.

Definition isArray (a : arg) : bool :=
  match a with
  | ArgArray _ => true
  | _ => false
  end.

Definition arg_value (a : arg) : value :=
  match a with
  | ArgNumber q => Num q
  | _ => Undefined
  end.

Definition arg_index (a : arg) (i : nat) : value :=
  match a with
  | ArgArray l => aget l i
  | _ => Undefined
  end.

(** [(isColorArray) ? colors[i] : colors] *)
Definition pick (a : arg) (i : nat) : value :=
  if isArray a then arg_index a i else arg_value a.

(** [vert = new Vertex(..); verts.push(vert);] *)
Definition push_vertex (vx : Vertex) (s : State) : State :=
  let '(l, h) := alloc (OVertex vx) (store s) in
  mkState h (set_vertices (vertices (this s) ++ [l]) (this s)).

(** [face = new Face(vert1, vert2, vert3); faces.push(face);] *)
Definition push_face (f : Face) (s : State) : State :=
  let '(l, h) := alloc (OFace f) (store s) in
  mkState h (set_faces (faces (this s) ++ [l]) (this s)).

(** [verts[i]] where [verts] is the array of Vertex references. *)
Definition vget (verts : list loc) (i : nat) : value :=
  match verts !! i with
  | Some l => Obj l
  | None => Undefined
  end.

(** The Vertex built by round [i] of the indexed loop (lines 215-224).
    [indicies[i] * 2] is the key into both flat arrays; if [indicies] had no
    entry at [i] the key would be [NaN] and all four reads [undefined]. *)
Definition indexed_vertex (positions uvs : list Q) (indicies : list Z)
    (colors alphas : arg) (i : nat) : Vertex :=
  match indicies !! i with
  | Some k =>
      let index := (k * 2)%Z in
      mkVertex (aget_z positions index) (aget_z positions (index + 1))
               (aget_z uvs index) (aget_z uvs (index + 1))
               (pick colors i) (pick alphas i)
  | None =>
      mkVertex Undefined Undefined Undefined Undefined
               (pick colors i) (pick alphas i)
  end.

Definition indexed_body (positions uvs : list Q) (indicies : list Z)
    (colors alphas : arg) (i : nat) (s : State) : State :=
  push_vertex (indexed_vertex positions uvs indicies colors alphas i) s.

(** The Vertex built by a round of the non-indexed loop (lines 235-242). *)
Definition flat_vertex (positions uvs : list Q) (colors alphas : arg)
    (i colorIndex : nat) : Vertex :=
  mkVertex (aget positions i) (aget positions (i + 1))
           (aget uvs i) (aget uvs (i + 1))
           (pick colors colorIndex) (pick alphas colorIndex).

(** The loop state carries [colorIndex]. *)
Definition flat_body (positions uvs : list Q) (colors alphas : arg)
    (i : nat) (sc : State * nat) : State * nat :=
  (push_vertex (flat_vertex positions uvs colors alphas i (snd sc)) (fst sc),
   snd sc + 1).

(** The Face built by round [i] of the face loop (lines 252-256). *)
Definition face_at (verts : list loc) (i : nat) : Face :=
  mkFace (vget verts i) (vget verts (i + 1)) (vget verts (i + 2)).

Definition face_body (i : nat) (s : State) : State :=
  push_face (face_at (vertices (this s)) i) s.

(** [addVertices(vertices, uvs, indicies, colors, alphas)]; the first
    argument is called [positions] here, [vertices] being the Mesh field. *)
Definition addVertices (positions uvs : list Q) (indicies : option (list Z))
    (colors alphas : arg) (s : State) : State * completion :=
  let colors := or_default colors 16777215 in
  let alphas := or_default alphas 1 in
  if negb (length positions =? length uvs) then
    (s, Throw "Mesh - vertices and uv count not equal")
  else
    let s1 :=
      match indicies with
      | Some ix =>
          for_ (length ix) 1 (indexed_body positions uvs ix colors alphas) s
      | None =>
          fst (for_ (length positions) 2
                    (flat_body positions uvs colors alphas) (s, 0))
      end in
    let s2 := for_ (length (vertices (this s1))) 3 face_body s1 in
    (s2, Normal).

(** ** clearVertices *)

(** Modelled from the spec: Face.destroy (Face.js is not part of the sources
    at hand).  "Destruction: releases its vertex references (does not destroy
    the vertices themselves)". *)
Definition Face_destroy (f : Face) : Face := mkFace Null Null Null.

(** [face.destroy()] on the object a reference of the [faces] array points to. *)
Definition destroy_at (h : heap) (l : loc) : heap :=
  match h !! l with
  | Some (OFace f) => <[l := OFace (Face_destroy f)]> h
  | _ => h
  end.

Definition clearVertices (s : State) : State :=
  let h := fold_left destroy_at (faces (this s)) (store s) in
  mkState h (set_vertices [] (set_faces [] (this s))).

(** ** Accessors *)

Definition getFaceCount (s : State) : nat := length (faces (this s)).

Definition getVertexCount (s : State) : nat := length (vertices (this s)).

(** [this.faces[index]] *)
Definition getFace (s : State) (index : Z) : value :=
  if (index <? 0)%Z then Undefined else vget (faces (this s)) (Z.to_nat index).

(** ** getFaceAt

    [GetCalcMatrix] and [Face.contains] live in files that are not part of
    the sources at hand; [getFaceAt] takes them as parameters. *)

(** A 2D affine matrix: [(x, y)] maps to [(x*a + y*c + tx, x*b + y*d + ty)]. *)
Record Matrix := mkMatrix {
  ma : Q; mb : Q; mc : Q; md : Q; mtx : Q; mty : Q
}.

(** Round [i] of the scan (lines 290-295). *)
Definition getFaceAt_body (contains : heap → loc → Q → Q → Matrix → bool)
    (s : State) (x y : Q) (calcMatrix : Matrix) (i : nat)
    (results : list loc) : list loc :=
  match faces (this s) !! i with
  | Some face =>
      if contains (store s) face x y calcMatrix
      then results ++ [face] else results
  | None => results
  end.

Definition getFaceAt (GetCalcMatrix : State → value → Matrix)
    (contains : heap → loc → Q → Q → Matrix → bool)
    (x y : Q) (camera : value) (s : State) : list loc :=
  let camera :=
    match camera with
    | Undefined => scene_sys_cameras_main (this s)
    | _ => camera
    end in
  let calcMatrix := GetCalcMatrix s camera in
  for_ (length (faces (this s))) 1
       (getFaceAt_body contains s x y calcMatrix) [].

(** ** Face containment

    Modelled from the spec: Face.contains (Face.js is not part of the sources
    at hand).  "apply the supplied 2D affine matrix to each of the three
    vertex local positions to obtain screen-space coordinates ... compute the
    three edge cross products relative to the test point; the point is inside
    (inclusive of boundary) iff all three signs are non-negative or all
    non-positive ... This must handle degenerate (zero-area) triangles by
    returning false (no containment), not by dividing by zero." *)

Definition point := (Q * Q)%type.

Definition transform (m : Matrix) (p : point) : point :=
  (fst p * ma m + snd p * mc m + mtx m, fst p * mb m + snd p * md m + mty m)%Q.

(** Cross product of the edge [p -> q] with [p -> r]. *)
Definition edge_cross (p q r : point) : Q :=
  ((fst q - fst p) * (snd r - snd p) - (snd q - snd p) * (fst r - fst p))%Q.

(** Twice the signed area of the triangle. *)
Definition area2 (p1 p2 p3 : point) : Q := edge_cross p1 p2 p3.

Definition same_sign (c1 c2 c3 : Q) : bool :=
  (Qle_bool 0 c1 && Qle_bool 0 c2 && Qle_bool 0 c3)
  || (Qle_bool c1 0 && Qle_bool c2 0 && Qle_bool c3 0).

Definition Face_contains (p1 p2 p3 : point) (px py : Q) (calcMatrix : Matrix)
    : bool :=
  let t1 := transform calcMatrix p1 in
  let t2 := transform calcMatrix p2 in
  let t3 := transform calcMatrix p3 in
  if Qeq_bool (area2 t1 t2 t3) 0 then false
  else
    same_sign (edge_cross t1 t2 (px, py)) (edge_cross t2 t3 (px, py))
              (edge_cross t3 t1 (px, py)).

Definition identity : Matrix := mkMatrix 1 0 0 1 0 0.

(** The local position of the Vertex a Face field refers to, when the field
    is a Vertex reference and both coordinates are numbers. *)
Definition vertex_point (h : heap) (r : value) : option point :=
  match r with
  | Obj l =>
      match h !! l with
      | Some (OVertex vx) =>
          match x vx, y vx with
          | Num px, Num py => Some (px, py)
          | _, _ => None
          end
      | _ => None
      end
  | _ => None
  end.

(** A sample containment test to run [getFaceAt] with: [Face_contains] on
    the positions of the three vertices of the face at [l].  A face lacking a
    numeric position is outside of what the spec describes; the sample test
    reports it as not hit. *)
Definition contains_at (h : heap) (l : loc) (px py : Q) (calcMatrix : Matrix)
    : bool :=
  match h !! l with
  | Some (OFace f) =>
      match vertex_point h (vertex1 f), vertex_point h (vertex2 f),
            vertex_point h (vertex3 f) with
      | Some p1, Some p2, Some p3 => Face_contains p1 p2 p3 px py calcMatrix
      | _, _, _ => false
      end
  | _ => false
  end.

(** ** Closed forms of the three loops of [addVertices]

    What a whole loop does to the state, stated without the loop; the
    verification below proves each loop equal to its closed form. *)

(** Allocate and push a batch of vertices. *)
Definition push_vertices (vl : list Vertex) (s : State) : State :=
  mkState (store s ++ (OVertex <$> vl))
          (set_vertices
             (vertices (this s) ++ seq (length (store s)) (length vl))
             (this s)).

(** Allocate and push a batch of faces. *)
Definition push_faces (fl : list Face) (s : State) : State :=
  mkState (store s ++ (OFace <$> fl))
          (set_faces
             (faces (this s) ++ seq (length (store s)) (length fl))
             (this s)).

(** The vertices one call constructs, in construction order. *)
Definition new_vertices (positions uvs : list Q) (indicies : option (list Z))
    (colors alphas : arg) : list Vertex :=
  let colors := or_default colors 16777215 in
  let alphas := or_default alphas 1 in
  match indicies with
  | Some ix =>
      indexed_vertex positions uvs ix colors alphas <$> seq 0 (length ix)
  | None =>
      (λ c, flat_vertex positions uvs colors alphas (c * 2) c)
        <$> seq 0 ((length positions + 1) / 2)
  end.

(** The number of vertices one call constructs. *)
Definition vertex_count (positions : list Q) (indicies : option (list Z))
    : nat :=
  match indicies with
  | Some ix => length ix
  | None => (length positions + 1) / 2
  end.

(** The vertex array after the call. *)
Definition vertices_after (vl : list Vertex) (s : State) : list loc :=
  vertices (this s) ++ seq (length (store s)) (length vl).

(** The faces the face loop constructs over the vertex array [verts]. *)
Definition new_faces (verts : list loc) : list Face :=
  (λ c, face_at verts (c * 3)) <$> seq 0 ((length verts + 2) / 3).

(** ** setDebug *)

(** JavaScript truthiness of a value; [!v] is its negation. *)
Definition truthy (v : value) : bool :=
  match v with
  | Undefined | Null => false
  | Num q => negb (Qeq_bool q 0)
  | Obj _ | Ext _ => true
  end.

Definition set_anims (a : value) (m : Mesh) : Mesh :=
  mkMesh a (faces m) (vertices m) (tintFill m) (debugCallback m)
         (debugGraphic m) (scene_sys_cameras_main m).

Definition set_debugCallback (c : value) (m : Mesh) : Mesh :=
  mkMesh (anims m) (faces m) (vertices m) (tintFill m) c
         (debugGraphic m) (scene_sys_cameras_main m).

Definition set_debugGraphic (g : value) (m : Mesh) : Mesh :=
  mkMesh (anims m) (faces m) (vertices m) (tintFill m) (debugCallback m)
         g (scene_sys_cameras_main m).

(** The function value [this.renderDebugVerts]. *)
Definition renderDebugVerts_ref : value := Ext "renderDebugVerts".

(** [setDebug(graphic, callback)] (lines 333-351); an omitted argument is
    [Undefined]. *)
Definition setDebug (graphic callback : value) (s : State) : State :=
  let m := set_debugGraphic graphic (this s) in
  let m :=
    if negb (truthy graphic) && negb (truthy callback) then
      set_debugCallback Null m
    else if negb (truthy callback) then
      set_debugCallback renderDebugVerts_ref m
    else
      set_debugCallback callback m in
  mkState (store s) m.

(** ** Calls on objects kept outside the store *)

(** The method calls the Mesh makes on its collaborators, in call order. *)
Inductive event :=
  | strokeTriangle (x0 y0 x1 y1 x2 y2 : value)
  | anims_update (time delta : Q)
  | anims_destroy.

(** How a call that contains no [throw] of its own completes: it returns, or
    a method call on a value that has no such method raises a TypeError. *)
Inductive outcome :=
  | Returned
  | TypeError.

(** ** renderDebugVerts *)

(** One round of the loop (lines 386-393).  Only an object kept outside the
    store can be the Graphics instance; [graphic.strokeTriangle(..)] on any
    other value raises a TypeError, which ends the loop: the rounds after it
    do nothing. *)
Definition renderDebugVerts_body (graphic : value) (verts : list Q)
    (i : nat) (st : list event * outcome) : list event * outcome :=
  match snd st with
  | TypeError => st
  | Returned =>
      match graphic with
      | Ext _ =>
          (fst st ++ [strokeTriangle
                        (aget verts (i + 0)) (aget verts (i + 1))
                        (aget verts (i + 2)) (aget verts (i + 3))
                        (aget verts (i + 4)) (aget verts (i + 5))],
           Returned)
      | _ => (fst st, TypeError)
      end
  end.

(** [renderDebugVerts(src, meshLength, verts)] (lines 380-395), for an
    integer [meshLength]: the counter [i] is never negative, so [i <
    meshLength] compares it with [meshLength] cut off at 0. *)
Definition renderDebugVerts (src : Mesh) (meshLength : Z) (verts : list Q)
    : list event * outcome :=
  let graphic := debugGraphic src in
  for_ (Z.to_nat meshLength) 6 (renderDebugVerts_body graphic verts)
       ([], Returned).

(** ** preUpdate and preDestroy

    [this.anims] holds the AnimationState the constructor created, an object
    kept outside the store, until [preDestroy] sets it to [undefined]; a
    method call on any other value raises a TypeError before anything is
    written. *)

(** [preUpdate(time, delta)] (lines 363-366). *)
Definition preUpdate (time delta : Q) (s : State)
    : State * list event * outcome :=
  match anims (this s) with
  | Ext _ => (s, [anims_update time delta], Returned)
  | _ => (s, [], TypeError)
  end.

(** [preDestroy()] (lines 404-414). *)
Definition preDestroy (s : State) : State * list event * outcome :=
  match anims (this s) with
  | Ext _ =>
      let s1 := mkState (store s) (set_anims Undefined (this s)) in
      let s2 := clearVertices s1 in
      let s3 :=
        mkState (store s2)
                (set_debugGraphic Null (set_debugCallback Null (this s2))) in
      (s3, [anims_destroy], Returned)
  | _ => (s, [], TypeError)
  end.

(** ** Well-formed meshes *)

(** A Face field is in order when it is [undefined] or refers to a Vertex of
    the vertex array [verts]. *)
Definition face_ref_ok (verts : list loc) (r : value) : Prop :=
  r = Undefined ∨ ∃ l, r = Obj l ∧ l ∈ verts.

(** Both arrays are free of repeats, every entry of the vertex array is a
    Vertex of the store, every entry of the face array is a Face of the
    store, and the faces refer to vertices of the vertex array only. *)
Definition wf (s : State) : Prop :=
  NoDup (vertices (this s))
  ∧ NoDup (faces (this s))
  ∧ (∀ l, l ∈ vertices (this s) → ∃ vx, store s !! l = Some (OVertex vx))
  ∧ (∀ f, f ∈ faces (this s) →
       ∃ fc, store s !! f = Some (OFace fc)
             ∧ face_ref_ok (vertices (this s)) (vertex1 fc)
             ∧ face_ref_ok (vertices (this s)) (vertex2 fc)
             ∧ face_ref_ok (vertices (this s)) (vertex3 fc)).

(** The states a Mesh goes through: the constructor leaves both arrays empty
    (lines 98 and 109) before its own [addVertices] call; from there on the
    methods below are applied in any order with any arguments. *)
Inductive reachable : State → Prop :=
  | reach_new s :
      faces (this s) = [] → vertices (this s) = [] → reachable s
  | reach_addVertices s positions uvs indicies colors alphas :
      reachable s →
      reachable (fst (addVertices positions uvs indicies colors alphas s))
  | reach_clearVertices s : reachable s → reachable (clearVertices s)
  | reach_setDebug s graphic callback :
      reachable s → reachable (setDebug graphic callback s)
  | reach_preDestroy s : reachable s → reachable (fst (fst (preDestroy s))).

(** ** Sample states *)

(** The Mesh as the constructor leaves it just before it calls
    [addVertices] (lines 85-155). *)
Definition fresh_mesh : Mesh :=
  mkMesh (Ext "AnimationState") [] [] false Null Null (Ext "cameras.main").

Definition fresh : State := mkState [] fresh_mesh.

(** The triangle (0,0), (4,0), (0,4) as a flat position array. *)
Definition triangle : list Q := [0; 0; 4; 0; 0; 4]%Q.

(** The quad (0,0), (10,0), (10,10), (0,10) as a flat position array. *)
Definition quad : list Q := [0; 0; 10; 0; 10; 10; 0; 10]%Q.

(** A mesh holding one triangle, hence one face. *)
Definition one_triangle : State :=
  fst (addVertices triangle triangle None ArgUndefined ArgUndefined fresh).

(** * Verification *)

(** ** The loop rule *)

Section for_loop_rules.
Context {A : Type}.
Variables (n step : nat) (body : nat → A → A).
Hypothesis step_pos : 0 < step.

(** An invariant kept by every round holds on exit, and the loop does exit:
    the fuel [n - i] is never used up. *)
Lemma for_loop_inv (P : nat → A → Prop) :
  (∀ j s, j < n → P j s → P (j + step) (body j s)) →
  ∀ fuel i s, n - i ≤ fuel → P i s →
    ∃ j, n ≤ j ∧ P j (for_loop fuel n step body i s).
Proof.
  intros Hstep fuel. induction fuel as [|fuel IH]; intros i s Hfuel HP.
  - exists i. split; [lia | exact HP].
  - simpl. destruct (Nat.ltb_spec i n) as [Hlt|Hge].
    + apply IH; [lia | by apply Hstep].
    + exists i. split; [lia | exact HP].
Qed.

(** The same rule, counting rounds: round [c] runs the body at [c * step]. *)
Lemma for_count (P : nat → A → Prop) (s : A) :
  P 0 s →
  (∀ c s, c * step < n → P c s → P (c + 1) (body (c * step) s)) →
  ∃ c, n ≤ c * step ∧ (c = 0 ∨ (c - 1) * step < n)
       ∧ P c (for_ n step body s).
Proof.
  intros H0 Hstep.
  destruct (for_loop_inv
              (λ j s, ∃ c, j = c * step ∧ (c = 0 ∨ (c - 1) * step < n) ∧ P c s))
    with (fuel := n) (i := 0) (s := s) as (j & Hj & c & -> & Hc & HP).
  - intros j s' Hlt (c & -> & Hc & HP). exists (c + 1).
    split; [lia|]. split; [|by apply Hstep].
    right. by replace (c + 1 - 1) with c by lia.
  - lia.
  - exists 0. auto.
  - exists c. auto.
Qed.
End for_loop_rules.

(** The number of rounds of a loop of step 2 or 3 over [n] entries. *)
Lemma rounds_step2 (n c : nat) :
  n ≤ c * 2 → c = 0 ∨ (c - 1) * 2 < n → c = (n + 1) / 2.
Proof.
  intros Hle [->|Hlt].
  - by replace n with 0 by lia.
  - apply (Nat.div_unique _ _ _ (n + 1 - c * 2)); lia.
Qed.

Lemma rounds_step3 (n c : nat) :
  n ≤ c * 3 → c = 0 ∨ (c - 1) * 3 < n → c = (n + 2) / 3.
Proof.
  intros Hle [->|Hlt].
  - by replace n with 0 by lia.
  - apply (Nat.div_unique _ _ _ (n + 2 - c * 3)); lia.
Qed.

(** ** Batches of pushes *)

Lemma push_vertices_nil s : push_vertices [] s = s.
Proof.
  destruct s as [h []]. unfold push_vertices, set_vertices. simpl.
  by rewrite !app_nil_r.
Qed.

Lemma push_vertices_snoc vl vx s :
  push_vertex vx (push_vertices vl s) = push_vertices (vl ++ [vx]) s.
Proof.
  unfold push_vertex, push_vertices, set_vertices, alloc. simpl.
  rewrite fmap_app, !length_app, length_fmap, seq_app. simpl.
  by rewrite <- !app_assoc.
Qed.

Lemma push_faces_nil s : push_faces [] s = s.
Proof.
  destruct s as [h []]. unfold push_faces, set_faces. simpl.
  by rewrite !app_nil_r.
Qed.

Lemma push_faces_snoc fl f s :
  push_face f (push_faces fl s) = push_faces (fl ++ [f]) s.
Proof.
  unfold push_face, push_faces, set_faces, alloc. simpl.
  rewrite fmap_app, !length_app, length_fmap, seq_app. simpl.
  by rewrite <- !app_assoc.
Qed.

Lemma fmap_seq_snoc {B : Type} (f : nat → B) (c : nat) :
  f <$> seq 0 (c + 1) = (f <$> seq 0 c) ++ [f c].
Proof. by rewrite seq_app, fmap_app. Qed.

(** ** The three loops *)

Lemma indexed_loop_eq positions uvs ix colors alphas s :
  for_ (length ix) 1 (indexed_body positions uvs ix colors alphas) s
  = push_vertices
      (indexed_vertex positions uvs ix colors alphas <$> seq 0 (length ix)) s.
Proof.
  set (f := indexed_vertex positions uvs ix colors alphas).
  destruct (for_count (length ix) 1 (indexed_body positions uvs ix colors alphas)
              ltac:(lia) (λ c st, st = push_vertices (f <$> seq 0 c) s) s)
    as (c & Hc1 & Hc2 & ->).
  - by rewrite push_vertices_nil.
  - intros c st _ ->. unfold indexed_body.
    rewrite push_vertices_snoc, fmap_seq_snoc. by rewrite Nat.mul_1_r.
  - by replace c with (length ix) by lia.
Qed.

Lemma flat_loop_eq positions uvs colors alphas s :
  fst (for_ (length positions) 2 (flat_body positions uvs colors alphas) (s, 0))
  = push_vertices
      ((λ c, flat_vertex positions uvs colors alphas (c * 2) c)
         <$> seq 0 ((length positions + 1) / 2)) s.
Proof.
  set (f := λ c, flat_vertex positions uvs colors alphas (c * 2) c).
  destruct (for_count (length positions) 2 (flat_body positions uvs colors alphas)
              ltac:(lia)
              (λ c sc, sc = (push_vertices (f <$> seq 0 c) s, c)) (s, 0))
    as (c & Hc1 & Hc2 & ->).
  - by rewrite push_vertices_nil.
  - intros c st _ ->. unfold flat_body. simpl.
    by rewrite push_vertices_snoc, fmap_seq_snoc.
  - by rewrite (rounds_step2 _ _ Hc1 Hc2).
Qed.

Lemma face_loop_eq s :
  for_ (length (vertices (this s))) 3 face_body s
  = push_faces (new_faces (vertices (this s))) s.
Proof.
  set (verts := vertices (this s)).
  set (f := λ c, face_at verts (c * 3)).
  destruct (for_count (length verts) 3 face_body ltac:(lia)
              (λ c st, st = push_faces (f <$> seq 0 c) s) s)
    as (c & Hc1 & Hc2 & ->).
  - by rewrite push_faces_nil.
  - intros c st _ ->. unfold face_body.
    by rewrite fmap_seq_snoc, <- push_faces_snoc.
  - by rewrite (rounds_step3 _ _ Hc1 Hc2).
Qed.

(** ** addVertices as a whole *)

(** With arrays of equal length the call completes normally, and its effect
    is one batch of vertices followed by one batch of faces grouped over the
    whole vertex array. *)
Lemma addVertices_ok positions uvs indicies colors alphas s :
  length positions = length uvs →
  addVertices positions uvs indicies colors alphas s
  = (let s1 :=
       push_vertices (new_vertices positions uvs indicies colors alphas) s in
     push_faces (new_faces (vertices (this s1))) s1, Normal).
Proof.
  intros Hlen. unfold addVertices.
  assert ((length positions =? length uvs) = true) as -> by by apply Nat.eqb_eq.
  cbn [negb]. cbv zeta. unfold new_vertices.
  destruct indicies as [ix|].
  - by rewrite indexed_loop_eq, face_loop_eq.
  - by rewrite flat_loop_eq, face_loop_eq.
Qed.

Lemma addVertices_effect positions uvs indicies colors alphas s :
  length positions = length uvs →
  let vl := new_vertices positions uvs indicies colors alphas in
  let fl := new_faces (vertices_after vl s) in
  ∃ s', addVertices positions uvs indicies colors alphas s = (s', Normal)
    ∧ store s' = store s ++ (OVertex <$> vl) ++ (OFace <$> fl)
    ∧ vertices (this s') = vertices_after vl s
    ∧ faces (this s')
      = faces (this s) ++ seq (length (store s) + length vl) (length fl).
Proof.
  intros Hlen vl fl. eexists. split; [by apply addVertices_ok|].
  unfold push_faces, push_vertices, set_faces, set_vertices. simpl.
  rewrite length_app, length_fmap, <- app_assoc. done.
Qed.

Lemma length_new_vertices_indexed positions uvs ix colors alphas :
  length (new_vertices positions uvs (Some ix) colors alphas) = length ix.
Proof. unfold new_vertices. by rewrite length_fmap, length_seq. Qed.

Lemma length_new_vertices_flat positions uvs colors alphas :
  length (new_vertices positions uvs None colors alphas)
  = (length positions + 1) / 2.
Proof. unfold new_vertices. by rewrite length_fmap, length_seq. Qed.

Lemma length_new_faces verts : length (new_faces verts) = (length verts + 2) / 3.
Proof. unfold new_faces. by rewrite length_fmap, length_seq. Qed.

(** The [i]-th constructed vertex sits at the [i]-th fresh location. *)
Lemma lookup_new_vertex (h : heap) (vl : list Vertex) (rest : heap) i vx :
  vl !! i = Some vx →
  (h ++ (OVertex <$> vl) ++ rest) !! (length h + i) = Some (OVertex vx).
Proof.
  intros Hi. rewrite lookup_app_r by lia.
  replace (length h + i - length h) with i by lia.
  rewrite lookup_app_l by (rewrite length_fmap; by eapply lookup_lt_Some).
  by rewrite list_lookup_fmap, Hi.
Qed.

(** ** Claims *)

(** C3. When [positions] and [uvs] differ in length, [addVertices] throws its
    error and the whole state (object store, vertex and face arrays, every
    other field) is exactly the state before the call. *)
Theorem addVertices_mismatch_atomic positions uvs indicies colors alphas s :
  length positions ≠ length uvs →
  addVertices positions uvs indicies colors alphas s
  = (s, Throw "Mesh - vertices and uv count not equal").
Proof.
  intros Hne. unfold addVertices.
  by assert ((length positions =? length uvs) = false) as ->
    by by apply Nat.eqb_neq.
Qed.

Lemma addVertices_mismatch_atomic_witness :
  addVertices [0; 0; 4]%Q [0; 0]%Q None ArgUndefined ArgUndefined one_triangle
  = (one_triangle, Throw "Mesh - vertices and uv count not equal").
Proof. apply addVertices_mismatch_atomic. vm_compute. lia. Defined.

(** C5. After [clearVertices] both counts are 0, whatever the state was, and
    a second [clearVertices] in a row changes nothing. *)
Theorem clearVertices_zero_idempotent s :
  getFaceCount (clearVertices s) = 0
  ∧ getVertexCount (clearVertices s) = 0
  ∧ clearVertices (clearVertices s) = clearVertices s.
Proof. by repeat split. Qed.

(** C10. [clearVertices] leaves the tint-fill flag, the debug callback, the
    debug Graphics reference and the animation state as they were. *)
Theorem clearVertices_frame s :
  tintFill (this (clearVertices s)) = tintFill (this s)
  ∧ debugCallback (this (clearVertices s)) = debugCallback (this s)
  ∧ debugGraphic (this (clearVertices s)) = debugGraphic (this s)
  ∧ anims (this (clearVertices s)) = anims (this s).
Proof. by repeat split. Qed.

(** Destroying a face only touches that face's own object. *)
Lemma destroy_at_other h l l' : l ≠ l' → destroy_at h l !! l' = h !! l'.
Proof.
  intros Hne. unfold destroy_at.
  destruct (h !! l) as [[|f]|]; try done. by rewrite list_lookup_insert_ne.
Qed.

(** In the store, [clearVertices] changes nothing but the objects its face
    array refers to. *)
Lemma clearVertices_store_frame s l :
  l ∉ faces (this s) → store (clearVertices s) !! l = store s !! l.
Proof.
  unfold clearVertices. simpl. generalize (store s).
  induction (faces (this s)) as [|f fs IH]; intros h Hl; [done|].
  apply not_elem_of_cons in Hl as [Hne Hl]. simpl.
  rewrite IH by done. by apply destroy_at_other.
Qed.

(** C7. [getFace(index)] is the face reference stored at [index] when
    [0 <= index < faces.length], and [undefined] for every other index; it
    is a total function, so no index makes it throw. *)
Theorem getFace_in_or_out_of_range s index :
  ((0 ≤ index < Z.of_nat (getFaceCount s))%Z →
     ∃ face, faces (this s) !! Z.to_nat index = Some face
             ∧ getFace s index = Obj face)
  ∧ (¬ (0 ≤ index < Z.of_nat (getFaceCount s))%Z →
     getFace s index = Undefined).
Proof.
  unfold getFace, getFaceCount, vget. split.
  - intros [H0 Hlt].
    destruct (lookup_lt_is_Some_2 (faces (this s)) (Z.to_nat index))
      as [face Hface]; [lia|].
    exists face. split; [done|].
    destruct (Z.ltb_spec index 0); [lia|]. by rewrite Hface.
  - intros Hout. destruct (Z.ltb_spec index 0); [done|].
    by rewrite (lookup_ge_None_2 (faces (this s)) (Z.to_nat index)) by lia.
Qed.

Lemma getFace_in_or_out_of_range_witness :
  getFace one_triangle 0 = Obj 3
  ∧ getFace one_triangle 1 = Undefined
  ∧ getFace one_triangle (-1) = Undefined.
Proof.
  destruct (getFace_in_or_out_of_range one_triangle 0) as [Hin _].
  destruct Hin as (face & Hface & ->); [vm_compute; split; [discriminate | reflexivity]|].
  split; [vm_compute in Hface; congruence|].
  split.
  - apply (getFace_in_or_out_of_range one_triangle 1). vm_compute.
    intros [_ H]. discriminate H.
  - apply (getFace_in_or_out_of_range one_triangle (-1)). vm_compute.
    intros [H _]. by apply H.
Defined.

(** ** getFaceAt *)

Section getFaceAt_scan.
Variable GetCalcMatrix : State → value → Matrix.
Variable contains : heap → loc → Q → Q → Matrix → bool.

(** The scan keeps, in order, the faces that pass the test. *)
Lemma getFaceAt_loop_eq s (x y : Q) (calcMatrix : Matrix) :
  for_ (length (faces (this s))) 1
       (getFaceAt_body contains s x y calcMatrix) []
  = filter (λ face, contains (store s) face x y calcMatrix = true)
           (faces (this s)).
Proof.
  set (P := λ face, contains (store s) face x y calcMatrix = true).
  destruct (for_count (length (faces (this s))) 1
              (getFaceAt_body contains s x y calcMatrix) ltac:(lia)
              (λ c results,
                 c ≤ length (faces (this s))
                 ∧ results = filter P (take c (faces (this s)))) [])
    as (c & Hc1 & _ & Hc2 & ->).
  - split; [lia | done].
  - intros c results Hlt [_ ->]. rewrite Nat.mul_1_r in *.
    split; [lia|]. unfold getFaceAt_body.
    destruct (lookup_lt_is_Some_2 (faces (this s)) c) as [face Hface]; [lia|].
    rewrite Hface. replace (c + 1) with (S c) by lia.
    rewrite (take_S_r _ _ _ Hface), filter_app.
    destruct (contains (store s) face x y calcMatrix) eqn:Htest.
    + by rewrite (filter_cons_True P face []), filter_nil.
    + rewrite (filter_cons_False P face []), filter_nil, app_nil_r; [done|].
      unfold P. by rewrite Htest.
  - by rewrite take_ge by lia.
Qed.

(** C6. [getFaceAt] returns exactly the faces of the mesh whose containment
    test under the resolved camera's matrix succeeds, in the order of the
    face array; a mesh without faces yields the empty array. *)
Theorem getFaceAt_ordered_subset (x y : Q) (camera : value) (s : State) :
  let calcMatrix :=
    GetCalcMatrix s (match camera with
                     | Undefined => scene_sys_cameras_main (this s)
                     | _ => camera
                     end) in
  let hit := λ face, contains (store s) face x y calcMatrix = true in
  getFaceAt GetCalcMatrix contains x y camera s
    = filter hit (faces (this s))
  ∧ getFaceAt GetCalcMatrix contains x y camera s `sublist_of` faces (this s)
  ∧ (∀ face, face ∈ getFaceAt GetCalcMatrix contains x y camera s
             ↔ hit face ∧ face ∈ faces (this s))
  ∧ (faces (this s) = [] →
     getFaceAt GetCalcMatrix contains x y camera s = []).
Proof.
  intros calcMatrix hit.
  assert (getFaceAt GetCalcMatrix contains x y camera s
          = filter hit (faces (this s))) as ->.
  { unfold getFaceAt. by rewrite getFaceAt_loop_eq. }
  split; [done|]. split; [apply sublist_filter|].
  split; [intros face; apply list_elem_of_filter|].
  by intros ->.
Qed.
End getFaceAt_scan.

Lemma getFaceAt_ordered_subset_witness :
  getFaceAt (λ _ _, identity) contains_at 1 1 Undefined one_triangle = [3]
  ∧ getFaceAt (λ _ _, identity) contains_at 5 5 Undefined one_triangle = []
  ∧ getFaceAt (λ _ _, identity) contains_at 1 1 Undefined fresh = [].
Proof.
  split; [|split].
  - destruct (getFaceAt_ordered_subset (λ _ _, identity) contains_at
                1 1 Undefined one_triangle) as [-> _]. reflexivity.
  - destruct (getFaceAt_ordered_subset (λ _ _, identity) contains_at
                5 5 Undefined one_triangle) as [-> _]. reflexivity.
  - apply (getFaceAt_ordered_subset (λ _ _, identity) contains_at
             1 1 Undefined fresh). reflexivity.
Defined.

(** ** Vertex construction *)

(** Colour and alpha of every constructed vertex are picked from the
    defaulted arguments at some position. *)
Lemma new_vertices_color_alpha positions uvs indicies colors alphas vx :
  vx ∈ new_vertices positions uvs indicies colors alphas →
  ∃ i, color vx = pick (or_default colors 16777215) i
       ∧ alpha vx = pick (or_default alphas 1) i.
Proof.
  unfold new_vertices. destruct indicies as [ix|];
    intros (c & -> & _)%list_elem_of_fmap; exists c.
  - unfold indexed_vertex. by destruct (ix !! c).
  - done.
Qed.

Lemma lookup_new_vertices_indexed positions uvs ix colors alphas i k :
  ix !! i = Some k →
  new_vertices positions uvs (Some ix) colors alphas !! i
  = Some (mkVertex (aget_z positions (k * 2)) (aget_z positions (k * 2 + 1))
                   (aget_z uvs (k * 2)) (aget_z uvs (k * 2 + 1))
                   (pick (or_default colors 16777215) i)
                   (pick (or_default alphas 1) i)).
Proof.
  intros Hk. unfold new_vertices.
  rewrite list_lookup_fmap, lookup_seq_lt by by eapply lookup_lt_Some.
  simpl. unfold indexed_vertex. by rewrite Hk.
Qed.

(** C4. Indexed ingestion allocates one fresh Vertex per entry of the index
    array, in order and without merging repeated indices; entry [i] with
    index [k] reads position and uv at [k*2] and [k*2+1], and takes colour
    and alpha from position [i] of the index sequence.  The quad with 8
    position values and indices [0,1,2, 0,2,3] on a mesh without vertices and
    faces yields 6 vertices and 2 faces. *)
Theorem addVertices_indexed_one_vertex_per_entry :
  (∀ positions uvs ix colors alphas s,
     length positions = length uvs →
     ∃ s', addVertices positions uvs (Some ix) colors alphas s = (s', Normal)
       ∧ vertices (this s')
         = vertices (this s) ++ seq (length (store s)) (length ix)
       ∧ (∀ l o, store s !! l = Some o → store s' !! l = Some o)
       ∧ ∀ i k, ix !! i = Some k →
           store s' !! (length (store s) + i)
           = Some (OVertex
               {| x := aget_z positions (k * 2);
                  y := aget_z positions (k * 2 + 1);
                  u := aget_z uvs (k * 2);
                  v := aget_z uvs (k * 2 + 1);
                  color := match colors with
                           | ArgUndefined => Num 16777215
                           | ArgNumber c => Num c
                           | ArgArray cs => aget cs i
                           end;
                  alpha := match alphas with
                           | ArgUndefined => Num 1
                           | ArgNumber a => Num a
                           | ArgArray als => aget als i
                           end |}))
  ∧ (∀ uvs s,
       length uvs = 8 → getVertexCount s = 0 → getFaceCount s = 0 →
       let s' := fst (addVertices quad uvs (Some [0; 1; 2; 0; 2; 3]%Z)
                                  ArgUndefined ArgUndefined s) in
       getVertexCount s' = 6 ∧ getFaceCount s' = 2).
Proof.
  split.
  - intros positions uvs ix colors alphas s Hlen.
    destruct (addVertices_effect positions uvs (Some ix) colors alphas s Hlen)
      as (s' & Hrun & Hstore & Hverts & _).
    exists s'. split; [done|]. split; [|split].
    + rewrite Hverts. unfold vertices_after.
      by rewrite length_new_vertices_indexed.
    + intros l o Hl. rewrite Hstore.
      rewrite lookup_app_l by by eapply lookup_lt_Some. done.
    + intros i k Hk. rewrite Hstore.
      erewrite lookup_new_vertex
        by by apply lookup_new_vertices_indexed.
      by destruct colors, alphas.
  - intros uvs s Huvs Hv Hf s'.
    destruct (addVertices_effect quad uvs (Some [0; 1; 2; 0; 2; 3]%Z)
                ArgUndefined ArgUndefined s) as (s1 & Hrun & _ & Hverts & Hfaces);
      [by rewrite Huvs|].
    subst s'. rewrite Hrun. unfold getVertexCount, getFaceCount in *. simpl.
    rewrite Hfaces, Hverts. unfold vertices_after.
    rewrite !length_app, !length_seq, length_new_faces. unfold vertices_after.
    rewrite length_app, length_seq, length_new_vertices_indexed, Hv, Hf.
    done.
Qed.

Lemma addVertices_indexed_one_vertex_per_entry_witness :
  (∃ s', addVertices quad quad (Some [0; 1; 2; 0; 2; 3]%Z)
                     (ArgArray [1; 2; 3; 4; 5; 6]%Q) ArgUndefined fresh
         = (s', Normal)
         ∧ vertices (this s') = [0; 1; 2; 3; 4; 5]
         ∧ store s' !! 3
           = Some (OVertex (mkVertex (Num 0) (Num 0) (Num 0) (Num 0)
                                     (Num 4) (Num 1)))
         ∧ store s' !! 5
           = Some (OVertex (mkVertex (Num 0) (Num 10) (Num 0) (Num 10)
                                     (Num 6) (Num 1))))
  ∧ getVertexCount
      (fst (addVertices quad quad (Some [0; 1; 2; 0; 2; 3]%Z)
                        ArgUndefined ArgUndefined fresh)) = 6
  ∧ getFaceCount
      (fst (addVertices quad quad (Some [0; 1; 2; 0; 2; 3]%Z)
                        ArgUndefined ArgUndefined fresh)) = 2.
Proof.
  destruct addVertices_indexed_one_vertex_per_entry as [Hgen Hquad]. split.
  - destruct (Hgen quad quad [0; 1; 2; 0; 2; 3]%Z
                (ArgArray [1; 2; 3; 4; 5; 6]%Q) ArgUndefined fresh eq_refl)
      as (s' & Hrun & Hverts & _ & Hv).
    exists s'. split; [exact Hrun|]. split; [exact Hverts|]. split.
    + exact (Hv 3 0%Z eq_refl).
    + exact (Hv 5 3%Z eq_refl).
  - exact (Hquad quad fresh eq_refl eq_refl eq_refl).
Defined.

(** C8. Every vertex a call constructs, in either ingestion mode, has colour
    0xffffff when [colors] is omitted and alpha 1 when [alphas] is omitted;
    a scalar [colors] or [alphas] is the colour or alpha of every vertex the
    call constructs. *)
Theorem addVertices_default_and_scalar positions uvs indicies colors alphas s :
  length positions = length uvs →
  ∃ s' new,
    addVertices positions uvs indicies colors alphas s = (s', Normal)
    ∧ vertices (this s') = vertices (this s) ++ new
    ∧ length new
      = match indicies with
        | Some ix => length ix
        | None => (length positions + 1) / 2
        end
    ∧ ∀ l, l ∈ new →
        ∃ vx, store s' !! l = Some (OVertex vx)
          ∧ (colors = ArgUndefined → color vx = Num 16777215)
          ∧ (alphas = ArgUndefined → alpha vx = Num 1)
          ∧ (∀ c, colors = ArgNumber c → color vx = Num c)
          ∧ (∀ a, alphas = ArgNumber a → alpha vx = Num a).
Proof.
  intros Hlen.
  destruct (addVertices_effect positions uvs indicies colors alphas s Hlen)
    as (s' & Hrun & Hstore & Hverts & _).
  set (vl := new_vertices positions uvs indicies colors alphas) in *.
  exists s', (seq (length (store s)) (length vl)).
  split; [done|]. split; [done|]. split.
  - rewrite length_seq. subst vl. destruct indicies.
    + apply length_new_vertices_indexed.
    + apply length_new_vertices_flat.
  - intros l [Hge Hlt]%elem_of_seq.
    destruct (lookup_lt_is_Some_2 vl (l - length (store s))) as [vx Hvx];
      [lia|].
    exists vx. split.
    + rewrite Hstore. replace l with (length (store s) + (l - length (store s)))
        at 1 by lia. by apply lookup_new_vertex.
    + apply list_elem_of_lookup_2, new_vertices_color_alpha in Hvx
        as (i & -> & ->).
      repeat split; try intros ? ->; try intros ->; done.
Qed.

Lemma addVertices_default_and_scalar_witness :
  ∃ s' new,
    addVertices triangle triangle None ArgUndefined (ArgNumber 0.5) fresh
    = (s', Normal)
    ∧ vertices (this s') = [] ++ new
    ∧ length new = 3
    ∧ ∀ l, l ∈ new →
        ∃ vx, store s' !! l = Some (OVertex vx)
          ∧ color vx = Num 16777215 ∧ alpha vx = Num 0.5.
Proof.
  destruct (addVertices_default_and_scalar triangle triangle None
              ArgUndefined (ArgNumber 0.5) fresh eq_refl)
    as (s' & new & Hrun & Hverts & Hnew & Hall).
  exists s', new. split; [exact Hrun|]. split; [exact Hverts|].
  split; [exact Hnew|].
  intros l Hl. destruct (Hall l Hl) as (vx & Hvx & Hc & _ & _ & Ha).
  exists vx. split; [exact Hvx|]. split; [exact (Hc eq_refl)|].
  exact (Ha _ eq_refl).
Defined.

(** ** Face containment *)

(** An affine map scales the signed area by its determinant. *)
Lemma area2_transform m p1 p2 p3 :
  Qeq (area2 (transform m p1) (transform m p2) (transform m p3))
      ((ma m * md m - mb m * mc m) * area2 p1 p2 p3).
Proof.
  destruct p1 as [x1 y1], p2 as [x2 y2], p3 as [x3 y3].
  unfold area2, edge_cross, transform. simpl. ring.
Qed.

(** The test is not constantly false: the examples of the spec. *)
Lemma Face_contains_examples :
  Face_contains (0, 0)%Q (4, 0)%Q (0, 4)%Q 1 1 identity = true
  ∧ Face_contains (0, 0)%Q (4, 0)%Q (0, 4)%Q 5 5 identity = false
  ∧ Face_contains (0, 0)%Q (4, 0)%Q (0, 4)%Q 2 0 identity = true.
Proof. by vm_compute. Qed.

(** Without the zero-area guard the sign test alone would accept the point
    (0,0) for the triangle collapsed onto (0,0). *)
Lemma same_sign_collapsed :
  same_sign (edge_cross (0, 0)%Q (0, 0)%Q (0, 0)%Q) (edge_cross (0, 0)%Q (0, 0)%Q (0, 0)%Q)
            (edge_cross (0, 0)%Q (0, 0)%Q (0, 0)%Q) = true.
Proof. by vm_compute. Qed.

(** C9. The containment test answers [false] for every triangle of zero
    area, in local space or after the matrix is applied, for every query
    point and every matrix; the test uses no division. *)
Theorem Face_contains_degenerate p1 p2 p3 px py calcMatrix :
  Qeq (area2 p1 p2 p3) 0
  ∨ Qeq (area2 (transform calcMatrix p1) (transform calcMatrix p2)
               (transform calcMatrix p3)) 0 →
  Face_contains p1 p2 p3 px py calcMatrix = false.
Proof.
  intros Hdeg. unfold Face_contains.
  assert (Qeq (area2 (transform calcMatrix p1) (transform calcMatrix p2)
                     (transform calcMatrix p3)) 0) as Hzero.
  { destruct Hdeg as [Hlocal|Hscreen]; [|exact Hscreen].
    rewrite area2_transform, Hlocal. ring. }
  apply Qeq_bool_iff in Hzero. by rewrite Hzero.
Qed.

Lemma Face_contains_degenerate_witness :
  Face_contains (0, 0)%Q (0, 0)%Q (0, 0)%Q 0 0 identity = false
  ∧ Face_contains (0, 0)%Q (2, 2)%Q (4, 4)%Q 1 1 identity = false.
Proof.
  split; apply Face_contains_degenerate; left; reflexivity.
Defined.

(** ** The face loop over a mesh that already has vertices *)

(** Counts after a call: the face loop runs once per started group of three
    over the whole vertex array, old vertices included. *)
Lemma addVertices_counts positions uvs indicies colors alphas s :
  length positions = length uvs →
  let n := length (new_vertices positions uvs indicies colors alphas) in
  let s' := fst (addVertices positions uvs indicies colors alphas s) in
  getVertexCount s' = getVertexCount s + n
  ∧ getFaceCount s' = getFaceCount s + (getVertexCount s + n + 2) / 3.
Proof.
  intros Hlen n s'.
  destruct (addVertices_effect positions uvs indicies colors alphas s Hlen)
    as (s1 & Hrun & _ & Hverts & Hfaces).
  subst s'. rewrite Hrun. unfold getVertexCount, getFaceCount. simpl.
  rewrite Hverts, Hfaces. unfold vertices_after.
  rewrite !length_app, !length_seq, length_new_faces. unfold vertices_after.
  by rewrite length_app, length_seq.
Qed.

(** The faces present before a call keep their place in the face array and
    their objects. *)
Lemma addVertices_keeps_old_faces positions uvs indicies colors alphas s :
  length positions = length uvs →
  let s' := fst (addVertices positions uvs indicies colors alphas s) in
  (∀ i face, faces (this s) !! i = Some face → faces (this s') !! i = Some face)
  ∧ (∀ l o, store s !! l = Some o → store s' !! l = Some o).
Proof.
  intros Hlen s'.
  destruct (addVertices_effect positions uvs indicies colors alphas s Hlen)
    as (s1 & Hrun & Hstore & _ & Hfaces).
  subst s'. rewrite Hrun. simpl. rewrite Hstore, Hfaces. split.
  - intros i face Hi. by rewrite lookup_app_l by by eapply lookup_lt_Some.
  - intros l o Hl. by rewrite lookup_app_l by by eapply lookup_lt_Some.
Qed.

(** The first face a call appends starts at entry 0 of the vertex array: on
    a mesh that had vertices before the call, it is built on an old vertex. *)
Lemma addVertices_first_new_face positions uvs indicies colors alphas s l0 :
  length positions = length uvs →
  vertices (this s) !! 0 = Some l0 →
  let s' := fst (addVertices positions uvs indicies colors alphas s) in
  ∃ face fc, faces (this s') !! length (faces (this s)) = Some face
             ∧ store s !! face = None
             ∧ store s' !! face = Some (OFace fc)
             ∧ vertex1 fc = Obj l0.
Proof.
  intros Hlen Hl0 s'.
  destruct (addVertices_effect positions uvs indicies colors alphas s Hlen)
    as (s1 & Hrun & Hstore & _ & Hfaces).
  subst s'. rewrite Hrun. simpl.
  set (vl := new_vertices positions uvs indicies colors alphas) in *.
  set (va := vertices_after vl s) in *.
  assert (va !! 0 = Some l0) as Hva.
  { unfold va, vertices_after.
    by rewrite lookup_app_l by by eapply lookup_lt_Some. }
  assert (0 < (length va + 2) / 3) as Hpos.
  { apply lookup_lt_Some in Hva. apply Nat.div_str_pos. lia. }
  assert (new_faces va !! 0 = Some (face_at va 0)) as Hf0.
  { unfold new_faces. by rewrite list_lookup_fmap, lookup_seq_lt. }
  exists (length (store s) + length vl), (face_at va 0).
  split; [|split; [|split]].
  - rewrite Hfaces, lookup_app_r, Nat.sub_diag by lia.
    rewrite lookup_seq_lt by by rewrite length_new_faces. f_equal. lia.
  - apply lookup_ge_None_2. lia.
  - rewrite Hstore, app_assoc, lookup_app_r
      by (rewrite length_app, length_fmap; lia).
    rewrite length_app, length_fmap, Nat.sub_diag.
    by rewrite list_lookup_fmap, Hf0.
  - unfold face_at, vget. simpl. by rewrite Hva.
Qed.

(** C1, evaluated.  On the mesh holding one triangle (vertices 0, 1, 2 and
    face 3 over them), adding a second triangle keeps face 3 as it was but
    appends two faces: face 7, built again on the old vertices 0, 1, 2, and
    face 8 on the new vertices 4, 5, 6. *)
Theorem addVertices_regroups_old_vertices :
  let s' := fst (addVertices [10; 0; 14; 0; 10; 4]%Q [10; 0; 14; 0; 10; 4]%Q
                             None ArgUndefined ArgUndefined one_triangle) in
  vertices (this one_triangle) = [0; 1; 2]
  ∧ faces (this one_triangle) = [3]
  ∧ store one_triangle !! 3 = Some (OFace (mkFace (Obj 0) (Obj 1) (Obj 2)))
  ∧ vertices (this s') = [0; 1; 2; 4; 5; 6]
  ∧ faces (this s') = [3; 7; 8]
  ∧ store s' !! 3 = Some (OFace (mkFace (Obj 0) (Obj 1) (Obj 2)))
  ∧ store s' !! 7 = Some (OFace (mkFace (Obj 0) (Obj 1) (Obj 2)))
  ∧ store s' !! 8 = Some (OFace (mkFace (Obj 4) (Obj 5) (Obj 6))).
Proof. by vm_compute. Qed.

(** C2, evaluated.  Four vertices on a mesh without vertices and faces give
    two faces, in both modes, where floor(4/3) is 1; the second face is
    built on the one trailing vertex and two [undefined] entries. *)
Theorem addVertices_trailing_vertex_face :
  let flat := fst (addVertices quad quad None ArgUndefined ArgUndefined fresh) in
  let indexed := fst (addVertices quad quad (Some [0; 1; 2; 0]%Z)
                                  ArgUndefined ArgUndefined fresh) in
  (length quad / 2) / 3 = 1
  ∧ getVertexCount flat = 4
  ∧ getFaceCount flat = 2
  ∧ getFace flat 1 = Obj 5
  ∧ store flat !! 5 = Some (OFace (mkFace (Obj 3) Undefined Undefined))
  ∧ length [0; 1; 2; 0]%Z / 3 = 1
  ∧ getVertexCount indexed = 4
  ∧ getFaceCount indexed = 2
  ∧ getFace indexed 1 = Obj 5
  ∧ store indexed !! 5 = Some (OFace (mkFace (Obj 3) Undefined Undefined)).
Proof. by vm_compute. Qed.

(** * Further properties of the Mesh methods *)

(** ** Shared facts about one addVertices call *)

(** The state a call leaves behind, whichever way it completes. *)
Lemma addVertices_fst positions uvs indicies colors alphas s :
  fst (addVertices positions uvs indicies colors alphas s)
  = if length positions =? length uvs then
      let s1 :=
        push_vertices (new_vertices positions uvs indicies colors alphas) s in
      push_faces (new_faces (vertices (this s1))) s1
    else s.
Proof.
  destruct (Nat.eqb_spec (length positions) (length uvs)) as [Heq|Hne].
  - by rewrite addVertices_ok.
  - unfold addVertices.
    by assert ((length positions =? length uvs) = false) as ->
      by by apply Nat.eqb_neq.
Qed.

Lemma length_new_vertices positions uvs indicies colors alphas :
  length (new_vertices positions uvs indicies colors alphas)
  = vertex_count positions indicies.
Proof.
  destruct indicies;
    [apply length_new_vertices_indexed | apply length_new_vertices_flat].
Qed.

(** The [j]-th constructed face sits right after the constructed vertices. *)
Lemma lookup_new_face (h : heap) (vl : list Vertex) (fl : list Face) j f :
  fl !! j = Some f →
  (h ++ (OVertex <$> vl) ++ (OFace <$> fl)) !! (length h + length vl + j)
  = Some (OFace f).
Proof.
  intros Hj. rewrite app_assoc, lookup_app_r
    by (rewrite length_app, length_fmap; lia).
  rewrite length_app, length_fmap.
  replace (length h + length vl + j - (length h + length vl)) with j by lia.
  by rewrite list_lookup_fmap, Hj.
Qed.

Lemma lookup_new_vertices_flat positions uvs colors alphas c :
  c < (length positions + 1) / 2 →
  new_vertices positions uvs None colors alphas !! c
  = Some (flat_vertex positions uvs (or_default colors 16777215)
                      (or_default alphas 1) (c * 2) c).
Proof.
  intros Hc. unfold new_vertices.
  by rewrite list_lookup_fmap, lookup_seq_lt.
Qed.

(** Colour and alpha of the [i]-th constructed vertex are picked at [i]. *)
Lemma lookup_new_vertices_color_alpha positions uvs indicies colors alphas i vx :
  new_vertices positions uvs indicies colors alphas !! i = Some vx →
  color vx = pick (or_default colors 16777215) i
  ∧ alpha vx = pick (or_default alphas 1) i.
Proof.
  unfold new_vertices. destruct indicies as [ix|];
    rewrite list_lookup_fmap; intros Hi;
    destruct (seq _ _ !! i) as [c|] eqn:Hc; simplify_eq/=;
    apply lookup_seq in Hc as [-> _]; simpl.
  - unfold indexed_vertex. by destruct (ix !! i).
  - done.
Qed.

Lemma aget_ge (a : list Q) (i : nat) : length a ≤ i → aget a i = Undefined.
Proof. intros Hi. unfold aget. by rewrite lookup_ge_None_2. Qed.

Lemma aget_z_out_of_range (a : list Q) (k : Z) :
  (k < 0 ∨ Z.of_nat (length a) ≤ k)%Z → aget_z a k = Undefined.
Proof.
  intros Hk. unfold aget_z. destruct (Z.ltb_spec k 0); [done|].
  apply aget_ge. lia.
Qed.

(** ** Vertex ingestion *)

(** X1. Non-indexed ingestion walks the flat arrays two entries at a time:
    it constructs ceil(positions.length / 2) vertices, and vertex [c] reads
    position and uv at [2c] and [2c+1] and colour and alpha at [c]. *)
Theorem addVertices_flat_reads positions uvs colors alphas s :
  length positions = length uvs →
  ∃ s', addVertices positions uvs None colors alphas s = (s', Normal)
    ∧ vertices (this s')
      = vertices (this s)
        ++ seq (length (store s)) ((length positions + 1) / 2)
    ∧ ∀ c, c < (length positions + 1) / 2 →
        store s' !! (length (store s) + c)
        = Some (OVertex
            {| x := aget positions (c * 2);
               y := aget positions (c * 2 + 1);
               u := aget uvs (c * 2);
               v := aget uvs (c * 2 + 1);
               color := match colors with
                        | ArgUndefined => Num 16777215
                        | ArgNumber n => Num n
                        | ArgArray cs => aget cs c
                        end;
               alpha := match alphas with
                        | ArgUndefined => Num 1
                        | ArgNumber a => Num a
                        | ArgArray als => aget als c
                        end |}).
Proof.
  intros Hlen.
  destruct (addVertices_effect positions uvs None colors alphas s Hlen)
    as (s' & Hrun & Hstore & Hverts & _).
  exists s'. split; [done|]. split.
  - rewrite Hverts. unfold vertices_after.
    by rewrite length_new_vertices_flat.
  - intros c Hc. rewrite Hstore.
    erewrite lookup_new_vertex by by apply lookup_new_vertices_flat.
    unfold flat_vertex. by destruct colors, alphas.
Qed.

Lemma addVertices_flat_reads_witness :
  ∃ s', addVertices [0; 0; 4; 0; 7]%Q [1; 1; 1; 1; 1]%Q None
                    (ArgArray [5; 6]%Q) ArgUndefined fresh = (s', Normal)
    ∧ vertices (this s') = [0; 1; 2]
    ∧ store s' !! 1
      = Some (OVertex (mkVertex (Num 4) (Num 0) (Num 1) (Num 1)
                                (Num 6) (Num 1)))
    ∧ store s' !! 2
      = Some (OVertex (mkVertex (Num 7) Undefined (Num 1) Undefined
                                Undefined (Num 1))).
Proof.
  destruct (addVertices_flat_reads [0; 0; 4; 0; 7]%Q [1; 1; 1; 1; 1]%Q
              (ArgArray [5; 6]%Q) ArgUndefined fresh eq_refl)
    as (s' & Hrun & Hverts & Hv).
  exists s'. split; [exact Hrun|]. split; [exact Hverts|]. split.
  - apply (Hv 1). vm_compute. lia.
  - apply (Hv 2). vm_compute. lia.
Defined.

(** X2. Whichever way it completes, [addVertices] writes to the vertex and
    face arrays only: the tint-fill flag, both debug fields, the animation
    state and the scene's main camera are as before. *)
Theorem addVertices_frame positions uvs indicies colors alphas s :
  let s' := fst (addVertices positions uvs indicies colors alphas s) in
  tintFill (this s') = tintFill (this s)
  ∧ debugCallback (this s') = debugCallback (this s)
  ∧ debugGraphic (this s') = debugGraphic (this s)
  ∧ anims (this s') = anims (this s)
  ∧ scene_sys_cameras_main (this s') = scene_sys_cameras_main (this s).
Proof.
  intros s'. subst s'. rewrite addVertices_fst.
  by destruct (length positions =? length uvs).
Qed.

(** X3. On a mesh without vertices, a call that constructs [3 m] vertices
    appends exactly [m] faces, and face [k] is built on the vertices
    [3k], [3k+1], [3k+2] of the call, in this order: every vertex lies in
    one face, and no face has an [undefined] entry. *)
Theorem addVertices_complete_triples positions uvs indicies colors alphas s m :
  length positions = length uvs →
  vertices (this s) = [] →
  vertex_count positions indicies = 3 * m →
  ∃ s', addVertices positions uvs indicies colors alphas s = (s', Normal)
    ∧ vertices (this s') = seq (length (store s)) (3 * m)
    ∧ faces (this s')
      = faces (this s) ++ seq (length (store s) + 3 * m) m
    ∧ ∀ k, k < m →
        store s' !! (length (store s) + 3 * m + k)
        = Some (OFace (mkFace (Obj (length (store s) + 3 * k))
                              (Obj (length (store s) + 3 * k + 1))
                              (Obj (length (store s) + 3 * k + 2)))).
Proof.
  intros Hlen Hnil Hcount.
  destruct (addVertices_effect positions uvs indicies colors alphas s Hlen)
    as (s' & Hrun & Hstore & Hverts & Hfaces).
  set (vl := new_vertices positions uvs indicies colors alphas) in *.
  assert (length vl = 3 * m) as Hvl
    by (unfold vl; by rewrite length_new_vertices).
  assert (vertices_after vl s = seq (length (store s)) (3 * m)) as Hva
    by (unfold vertices_after; by rewrite Hnil, Hvl).
  assert ((3 * m + 2) / 3 = m) as Hdiv
    by (symmetry; apply (Nat.div_unique _ _ _ 2); lia).
  assert (length (new_faces (vertices_after vl s)) = m) as Hfl
    by by rewrite length_new_faces, Hva, length_seq.
  exists s'. split; [done|]. split; [by rewrite Hverts|]. split.
  - by rewrite Hfaces, Hvl, Hfl.
  - intros k Hk. rewrite Hstore, <- Hvl.
    apply lookup_new_face. rewrite Hva. unfold new_faces.
    rewrite length_seq, Hdiv, list_lookup_fmap, lookup_seq_lt by done.
    cbn [fmap option_fmap option_map]. unfold face_at, vget.
    rewrite !lookup_seq_lt by lia.
    f_equal. f_equal; f_equal; lia.
Qed.

Lemma addVertices_complete_triples_witness :
  ∃ s', addVertices quad quad (Some [0; 1; 2; 0; 2; 3]%Z)
                    ArgUndefined ArgUndefined fresh = (s', Normal)
    ∧ vertices (this s') = [0; 1; 2; 3; 4; 5]
    ∧ faces (this s') = [6; 7]
    ∧ store s' !! 7 = Some (OFace (mkFace (Obj 3) (Obj 4) (Obj 5))).
Proof.
  destruct (addVertices_complete_triples quad quad (Some [0; 1; 2; 0; 2; 3]%Z)
              ArgUndefined ArgUndefined fresh 2 eq_refl eq_refl eq_refl)
    as (s' & Hrun & Hverts & Hfaces & Hf).
  exists s'. split; [exact Hrun|]. split; [exact Hverts|].
  split; [exact Hfaces|]. apply (Hf 1). lia.
Defined.

(** X4. A call never moves or rewrites what the mesh already had: every
    index that named a face before the call names the same face after it,
    and the objects of the store are as they were. *)
Theorem addVertices_getFace_stable positions uvs indicies colors alphas s index :
  (0 ≤ index < Z.of_nat (getFaceCount s))%Z →
  let s' := fst (addVertices positions uvs indicies colors alphas s) in
  getFace s' index = getFace s index
  ∧ ∀ l o, store s !! l = Some o → store s' !! l = Some o.
Proof.
  intros Hin s'. subst s'. rewrite addVertices_fst.
  destruct (length positions =? length uvs); [|done].
  unfold getFace, getFaceCount, vget, push_faces, push_vertices in *. simpl.
  split.
  - destruct (index <? 0)%Z; [done|].
    by rewrite lookup_app_l by lia.
  - intros l o Hl. rewrite <- app_assoc.
    by rewrite lookup_app_l by by eapply lookup_lt_Some.
Qed.

Lemma addVertices_getFace_stable_witness :
  getFace (fst (addVertices triangle triangle None ArgUndefined ArgUndefined
                            one_triangle)) 0
  = getFace one_triangle 0.
Proof.
  apply (addVertices_getFace_stable triangle triangle None ArgUndefined
           ArgUndefined one_triangle 0).
  vm_compute. split; [discriminate | reflexivity].
Defined.

(** X5. An index entry that is negative or points past the end of the
    position array raises no error: the call still constructs a vertex for
    it, whose position and uv are all [undefined]. *)
Theorem addVertices_index_out_of_range positions uvs ix colors alphas s i k :
  length positions = length uvs →
  ix !! i = Some k →
  (k < 0 ∨ Z.of_nat (length positions) ≤ k * 2)%Z →
  ∃ s' vx,
    addVertices positions uvs (Some ix) colors alphas s = (s', Normal)
    ∧ vertices (this s') !! (length (vertices (this s)) + i)
      = Some (length (store s) + i)
    ∧ store s' !! (length (store s) + i) = Some (OVertex vx)
    ∧ x vx = Undefined ∧ y vx = Undefined
    ∧ u vx = Undefined ∧ v vx = Undefined.
Proof.
  intros Hlen Hk Hout.
  destruct (addVertices_effect positions uvs (Some ix) colors alphas s Hlen)
    as (s' & Hrun & Hstore & Hverts & _).
  pose proof (lookup_lt_Some _ _ _ Hk) as Hi.
  eexists s', _. split; [done|]. split; [|split].
  - rewrite Hverts. unfold vertices_after.
    rewrite length_new_vertices_indexed, lookup_app_r by (unfold loc; lia).
    rewrite lookup_seq_lt by (unfold loc; lia). f_equal. unfold loc. lia.
  - rewrite Hstore. apply lookup_new_vertex.
    by apply lookup_new_vertices_indexed.
  - simpl. by rewrite !aget_z_out_of_range by lia.
Qed.

Lemma addVertices_index_out_of_range_witness :
  ∃ s' vx,
    addVertices triangle triangle (Some [0; 7; (-1)]%Z)
                ArgUndefined ArgUndefined fresh = (s', Normal)
    ∧ vertices (this s') !! 1 = Some 1
    ∧ store s' !! 1 = Some (OVertex vx)
    ∧ x vx = Undefined ∧ y vx = Undefined
    ∧ u vx = Undefined ∧ v vx = Undefined.
Proof.
  apply (addVertices_index_out_of_range triangle triangle [0; 7; (-1)]%Z
           ArgUndefined ArgUndefined fresh 1 7 eq_refl eq_refl).
  right. vm_compute. discriminate.
Defined.

(** X6. Array colours and alphas are applied by position in construction
    order, in both ingestion modes: the [i]-th vertex of the call gets
    [colors[i]] and [alphas[i]], which is [undefined], not an error, when
    the array is too short. *)
Theorem addVertices_array_color_alpha positions uvs indicies colors alphas s i :
  length positions = length uvs →
  i < vertex_count positions indicies →
  ∃ s' vx,
    addVertices positions uvs indicies colors alphas s = (s', Normal)
    ∧ store s' !! (length (store s) + i) = Some (OVertex vx)
    ∧ (∀ cs, colors = ArgArray cs →
         color vx = aget cs i ∧ (length cs ≤ i → color vx = Undefined))
    ∧ (∀ als, alphas = ArgArray als →
         alpha vx = aget als i ∧ (length als ≤ i → alpha vx = Undefined)).
Proof.
  intros Hlen Hi.
  destruct (addVertices_effect positions uvs indicies colors alphas s Hlen)
    as (s' & Hrun & Hstore & _).
  destruct (lookup_lt_is_Some_2
              (new_vertices positions uvs indicies colors alphas) i)
    as [vx Hvx]; [by rewrite length_new_vertices|].
  exists s', vx. split; [done|]. split.
  - rewrite Hstore. by apply lookup_new_vertex.
  - apply lookup_new_vertices_color_alpha in Hvx as [-> ->].
    split; intros l ->; (split; [done|]); intros Hshort; by apply aget_ge.
Qed.

Lemma addVertices_array_color_alpha_witness :
  ∃ s' vx,
    addVertices triangle triangle None (ArgArray [255; 65280]%Q)
                (ArgArray [0.5]%Q) fresh = (s', Normal)
    ∧ store s' !! 2 = Some (OVertex vx)
    ∧ color vx = Undefined ∧ alpha vx = Undefined.
Proof.
  destruct (addVertices_array_color_alpha triangle triangle None
              (ArgArray [255; 65280]%Q) (ArgArray [0.5]%Q) fresh 2 eq_refl)
    as (s' & vx & Hrun & Hvx & Hc & Ha); [vm_compute; lia|].
  exists s', vx. split; [exact Hrun|]. split; [exact Hvx|]. split.
  - apply (Hc _ eq_refl). simpl. lia.
  - apply (Ha _ eq_refl). simpl. lia.
Defined.

(** ** clearVertices *)

(** Destroying faces keeps the size of the store and every Vertex object. *)
Lemma destroy_all_keeps (fs : list loc) (h : heap) :
  length (fold_left destroy_at fs h) = length h
  ∧ ∀ l vx, h !! l = Some (OVertex vx) →
            fold_left destroy_at fs h !! l = Some (OVertex vx).
Proof.
  revert h. induction fs as [|f fs IH]; intros h; [done|]. simpl.
  assert (length (destroy_at h f) = length h
          ∧ ∀ l vx, h !! l = Some (OVertex vx) →
                    destroy_at h f !! l = Some (OVertex vx)) as [Hlen Hkeep].
  { unfold destroy_at. destruct (h !! f) as [[|fc]|] eqn:Hf; try done.
    split; [by rewrite length_insert|].
    intros l vx Hl. rewrite list_lookup_insert_ne; [done|].
    intros ->. unfold loc in *. congruence. }
  destruct (IH (destroy_at h f)) as [IHlen IHkeep].
  split; [congruence | auto].
Qed.

(** X7. [clearVertices] drops the references but keeps the store's size and
    every Vertex object: a Vertex reference a caller kept still reads the
    same vertex after the mesh was cleared. *)
Theorem clearVertices_keeps_vertex_objects s :
  length (store (clearVertices s)) = length (store s)
  ∧ ∀ l vx, store s !! l = Some (OVertex vx) →
            store (clearVertices s) !! l = Some (OVertex vx).
Proof. unfold clearVertices. simpl. apply destroy_all_keeps. Qed.

Lemma clearVertices_keeps_vertex_objects_witness :
  store (clearVertices one_triangle) !! 1
  = Some (OVertex (mkVertex (Num 4) (Num 0) (Num 4) (Num 0)
                            (Num 16777215) (Num 1))).
Proof.
  apply (clearVertices_keeps_vertex_objects one_triangle). reflexivity.
Defined.

(** X8. Adding vertices to a cleared mesh starts over: whatever the mesh
    held before, it then has exactly the vertices of the call and one face
    per started group of three of them. *)
Theorem addVertices_after_clearVertices positions uvs indicies colors alphas s :
  length positions = length uvs →
  let s' := fst (addVertices positions uvs indicies colors alphas
                             (clearVertices s)) in
  getVertexCount s' = vertex_count positions indicies
  ∧ getFaceCount s' = (vertex_count positions indicies + 2) / 3
  ∧ vertices (this s')
    = seq (length (store s)) (vertex_count positions indicies).
Proof.
  intros Hlen s'.
  destruct (addVertices_effect positions uvs indicies colors alphas
              (clearVertices s) Hlen) as (s1 & Hrun & _ & Hverts & Hfaces).
  subst s'. rewrite Hrun. unfold getVertexCount, getFaceCount. simpl.
  rewrite Hverts, Hfaces. unfold vertices_after.
  rewrite length_new_faces. unfold vertices_after, clearVertices. simpl.
  destruct (destroy_all_keeps (faces (this s)) (store s)) as [-> _].
  by rewrite !length_seq, length_new_vertices.
Qed.

Lemma addVertices_after_clearVertices_witness :
  getVertexCount (fst (addVertices quad quad None ArgUndefined ArgUndefined
                                   (clearVertices one_triangle))) = 4
  ∧ getFaceCount (fst (addVertices quad quad None ArgUndefined ArgUndefined
                                   (clearVertices one_triangle))) = 2.
Proof.
  destruct (addVertices_after_clearVertices quad quad None ArgUndefined
              ArgUndefined one_triangle eq_refl) as (Hv & Hf & _).
  split; [exact Hv | exact Hf].
Defined.

(** ** The mesh stays well formed *)

Lemma vget_ok (verts : list loc) (i : nat) : face_ref_ok verts (vget verts i).
Proof.
  unfold vget, face_ref_ok. destruct (verts !! i) as [l|] eqn:Hl; [|by left].
  right. exists l. split; [done|]. by eapply list_elem_of_lookup_2.
Qed.

Lemma face_ref_ok_mono (verts more : list loc) (r : value) :
  face_ref_ok verts r → face_ref_ok (verts ++ more) r.
Proof.
  intros [->|(l & -> & Hl)]; [by left|].
  right. exists l. split; [done|]. apply elem_of_app. by left.
Qed.

Lemma wf_new s : faces (this s) = [] → vertices (this s) = [] → wf s.
Proof.
  intros Hf Hv. unfold wf. rewrite Hf, Hv.
  repeat split; try apply NoDup_nil_2; by intros ? ?%elem_of_nil.
Qed.

Lemma addVertices_wf positions uvs indicies colors alphas s :
  wf s → wf (fst (addVertices positions uvs indicies colors alphas s)).
Proof.
  intros (Hnv & Hnf & Hv & Hf).
  destruct (decide (length positions = length uvs)) as [Hlen|Hne]; cycle 1.
  { rewrite addVertices_fst.
    assert ((length positions =? length uvs) = false) as ->
      by by apply Nat.eqb_neq.
    done. }
  destruct (addVertices_effect positions uvs indicies colors alphas s Hlen)
    as (s' & Hrun & Hstore & Hverts & Hfaces).
  rewrite Hrun. simpl.
  set (vl := new_vertices positions uvs indicies colors alphas) in *.
  set (fl := new_faces (vertices_after vl s)) in *.
  assert (∀ l, l ∈ vertices (this s) → l < length (store s)) as Hvlt.
  { intros l (vx & Hl)%Hv. by eapply lookup_lt_Some. }
  assert (∀ f, f ∈ faces (this s) → f < length (store s)) as Hflt.
  { intros f (fc & Hl & _)%Hf. by eapply lookup_lt_Some. }
  assert (∀ l o, store s !! l = Some o → store s' !! l = Some o) as Hold.
  { intros l o Hl. rewrite Hstore.
    by rewrite lookup_app_l by by eapply lookup_lt_Some. }
  unfold wf. rewrite Hverts, Hfaces. unfold vertices_after in *.
  split; [|split; [|split]].
  - apply NoDup_app. split; [done|]. split; [|apply NoDup_seq].
    intros l Hl%Hvlt Hin%elem_of_seq. lia.
  - apply NoDup_app. split; [done|]. split; [|apply NoDup_seq].
    intros f Hl%Hflt Hin%elem_of_seq. lia.
  - intros l [Hl|Hl]%elem_of_app.
    + destruct (Hv l Hl) as [vx Hvx]. exists vx. by apply Hold.
    + apply elem_of_seq in Hl as [Hge Hlt].
      destruct (lookup_lt_is_Some_2 vl (l - length (store s))) as [vx Hvx];
        [lia|].
      exists vx. rewrite Hstore.
      replace l with (length (store s) + (l - length (store s))) at 1 by lia.
      by apply lookup_new_vertex.
  - intros f [Hin|Hin]%elem_of_app.
    + destruct (Hf f Hin) as (fc & Hfc & H1 & H2 & H3).
      exists fc. split; [by apply Hold|].
      repeat split; by apply face_ref_ok_mono.
    + apply elem_of_seq in Hin as [Hge Hlt].
      destruct (lookup_lt_is_Some_2 fl (f - (length (store s) + length vl)))
        as [fc Hfc]; [lia|].
      exists fc. split.
      * rewrite Hstore.
        replace f with (length (store s) + length vl
                        + (f - (length (store s) + length vl))) at 1 by lia.
        by apply lookup_new_face.
      * unfold fl, new_faces in Hfc.
        rewrite list_lookup_fmap in Hfc.
        destruct (seq _ _ !! _) as [c|]; simplify_eq/=.
        repeat split; apply vget_ok.
Qed.

Lemma clearVertices_wf s : wf (clearVertices s).
Proof. by apply wf_new. Qed.

Lemma setDebug_wf graphic callback s : wf s → wf (setDebug graphic callback s).
Proof.
  unfold wf, setDebug.
  by destruct (negb (truthy graphic) && negb (truthy callback)),
              (negb (truthy callback)).
Qed.

Lemma preDestroy_wf s : wf s → wf (fst (fst (preDestroy s))).
Proof.
  intros Hwf. unfold preDestroy.
  destruct (anims (this s)); try done. by apply wf_new.
Qed.

(** Well-formedness holds in every reachable state. *)
Lemma reachable_invariant s : reachable s → wf s.
Proof.
  induction 1 as [s Hf Hv| | | |].
  - by apply wf_new.
  - by apply addVertices_wf.
  - apply clearVertices_wf.
  - by apply setDebug_wf.
  - by apply preDestroy_wf.
Qed.

(** X9. Through any sequence of [addVertices], [clearVertices], [setDebug]
    and [preDestroy] calls after construction, neither array holds a
    reference twice, and every index within the face count names a Face of
    the store each of whose three fields is [undefined] or a Vertex listed in
    the mesh's own vertex array. *)
Theorem reachable_faces_well_formed s :
  reachable s →
  NoDup (vertices (this s))
  ∧ NoDup (faces (this s))
  ∧ ∀ index, (0 ≤ index < Z.of_nat (getFaceCount s))%Z →
      ∃ face fc,
        getFace s index = Obj face
        ∧ store s !! face = Some (OFace fc)
        ∧ ∀ r, r ∈ [vertex1 fc; vertex2 fc; vertex3 fc] →
            r = Undefined
            ∨ ∃ l vx, r = Obj l ∧ l ∈ vertices (this s)
                      ∧ store s !! l = Some (OVertex vx).
Proof.
  intros (Hnv & Hnf & Hv & Hf)%reachable_invariant.
  split; [done|]. split; [done|].
  intros index [H0 Hlt]. unfold getFaceCount in Hlt.
  destruct (lookup_lt_is_Some_2 (faces (this s)) (Z.to_nat index))
    as [face Hface]; [lia|].
  destruct (Hf face) as (fc & Hfc & H1 & H2 & H3);
    [by eapply list_elem_of_lookup_2|].
  exists face, fc. split; [|split; [done|]].
  - unfold getFace, vget. destruct (Z.ltb_spec index 0); [lia|].
    by rewrite Hface.
  - assert (∀ r, face_ref_ok (vertices (this s)) r →
              r = Undefined
              ∨ ∃ l vx, r = Obj l ∧ l ∈ vertices (this s)
                        ∧ store s !! l = Some (OVertex vx)) as Hok.
    { intros r [->|(l & -> & Hl)]; [by left|].
      destruct (Hv l Hl) as [vx Hvx]. right. by exists l, vx. }
    intros r Hr. apply Hok.
    repeat (apply elem_of_cons in Hr as [->|Hr]; [done|]).
    by apply elem_of_nil in Hr.
Qed.

Lemma reachable_faces_well_formed_witness :
  ∃ face fc,
    getFace (fst (addVertices quad quad None ArgUndefined ArgUndefined
                              (setDebug (Ext "Graphics") Undefined
                                        one_triangle))) 2
    = Obj face
    ∧ store (fst (addVertices quad quad None ArgUndefined ArgUndefined
                              (setDebug (Ext "Graphics") Undefined
                                        one_triangle))) !! face
      = Some (OFace fc).
Proof.
  destruct (reachable_faces_well_formed
              (fst (addVertices quad quad None ArgUndefined ArgUndefined
                                (setDebug (Ext "Graphics") Undefined
                                          one_triangle))))
    as (_ & _ & Hfaces).
  - apply reach_addVertices, reach_setDebug.
    unfold one_triangle. apply reach_addVertices. by apply reach_new.
  - destruct (Hfaces 2%Z) as (face & fc & Hget & Hfc & _).
    + vm_compute. split; [discriminate | reflexivity].
    + exists face, fc. split; [exact Hget | exact Hfc].
Defined.

(** ** setDebug *)

(** X10. After [setDebug(graphic, callback)] the debug callback is truthy
    exactly when one of the two arguments is: a truthy callback is stored as
    given, a truthy graphic alone selects the built-in [renderDebugVerts],
    and two falsy arguments store [null].  [debugGraphic] holds the first
    argument as passed, so [setDebug()] leaves it [undefined]. *)
Theorem setDebug_enabled graphic callback s :
  let m := this (setDebug graphic callback s) in
  truthy (debugCallback m) = truthy graphic || truthy callback
  ∧ debugGraphic m = graphic
  ∧ (truthy callback = true → debugCallback m = callback)
  ∧ (truthy callback = false → truthy graphic = true →
     debugCallback m = renderDebugVerts_ref)
  ∧ (truthy callback = false → truthy graphic = false →
     debugCallback m = Null).
Proof.
  unfold setDebug. simpl.
  destruct (truthy graphic) eqn:Hg, (truthy callback) eqn:Hc; simpl;
    rewrite ?Hc; repeat split; try done.
Qed.

Lemma setDebug_enabled_witness :
  debugCallback (this (setDebug (Ext "Graphics") Undefined fresh))
  = renderDebugVerts_ref
  ∧ debugCallback (this (setDebug Undefined (Ext "myCallback") fresh))
    = Ext "myCallback"
  ∧ debugCallback (this (setDebug Undefined Undefined fresh)) = Null
  ∧ debugGraphic (this (setDebug Undefined Undefined fresh)) = Undefined.
Proof.
  split; [|split; [|split]].
  - by apply (setDebug_enabled (Ext "Graphics") Undefined fresh).
  - by apply (setDebug_enabled Undefined (Ext "myCallback") fresh).
  - by apply (setDebug_enabled Undefined Undefined fresh).
  - by apply (setDebug_enabled Undefined Undefined fresh).
Defined.

(** X11. [setDebug] overwrites both debug fields and nothing else: the
    latest call alone decides the debug state, and the store, both arrays,
    the tint-fill flag and the animation state are untouched. *)
Theorem setDebug_last_call_wins graphic callback graphic' callback' s :
  setDebug graphic callback (setDebug graphic' callback' s)
  = setDebug graphic callback s
  ∧ store (setDebug graphic callback s) = store s
  ∧ faces (this (setDebug graphic callback s)) = faces (this s)
  ∧ vertices (this (setDebug graphic callback s)) = vertices (this s)
  ∧ tintFill (this (setDebug graphic callback s)) = tintFill (this s)
  ∧ anims (this (setDebug graphic callback s)) = anims (this s).
Proof.
  unfold setDebug.
  by destruct (negb (truthy graphic) && negb (truthy callback)),
              (negb (truthy callback)),
              (negb (truthy graphic') && negb (truthy callback')),
              (negb (truthy callback')).
Qed.

(** ** renderDebugVerts *)

Lemma rounds_step6 (n c : nat) :
  n ≤ c * 6 → c = 0 ∨ (c - 1) * 6 < n → c = (n + 5) / 6.
Proof.
  intros Hle [->|Hlt].
  - by replace n with 0 by lia.
  - apply (Nat.div_unique _ _ _ (n + 5 - c * 6)); lia.
Qed.

(** X12. With a Graphics instance set, the built-in callback issues one
    [strokeTriangle] per started group of six entries below [meshLength] and
    returns; call [c] passes [verts[6c] .. verts[6c+5]], entries past the end
    of [verts] being [undefined].  Nothing is drawn when [meshLength <= 0]. *)
Theorem renderDebugVerts_strokes src meshLength verts name :
  debugGraphic src = Ext name →
  renderDebugVerts src meshLength verts
  = ((λ c, strokeTriangle
             (aget verts (c * 6 + 0)) (aget verts (c * 6 + 1))
             (aget verts (c * 6 + 2)) (aget verts (c * 6 + 3))
             (aget verts (c * 6 + 4)) (aget verts (c * 6 + 5)))
       <$> seq 0 ((Z.to_nat meshLength + 5) / 6),
     Returned).
Proof.
  intros Hg. unfold renderDebugVerts. rewrite Hg.
  set (f := λ c, strokeTriangle _ _ _ _ _ _).
  destruct (for_count (Z.to_nat meshLength) 6
              (renderDebugVerts_body (Ext name) verts) ltac:(lia)
              (λ c st, st = (f <$> seq 0 c, Returned)) ([], Returned))
    as (c & Hc1 & Hc2 & ->).
  - done.
  - intros c st _ ->. unfold renderDebugVerts_body. simpl.
    by rewrite fmap_seq_snoc.
  - by rewrite (rounds_step6 _ _ Hc1 Hc2).
Qed.

Lemma renderDebugVerts_strokes_witness :
  renderDebugVerts (this (setDebug (Ext "Graphics") Undefined fresh)) 8
                   [0; 0; 4; 0; 0; 4; 9; 9]%Q
  = ([strokeTriangle (Num 0) (Num 0) (Num 4) (Num 0) (Num 0) (Num 4);
      strokeTriangle (Num 9) (Num 9) Undefined Undefined Undefined Undefined],
     Returned).
Proof.
  exact (renderDebugVerts_strokes
           (this (setDebug (Ext "Graphics") Undefined fresh)) 8
           [0; 0; 4; 0; 0; 4; 9; 9]%Q "Graphics" eq_refl).
Defined.

(** X13. Without a Graphics instance (the debug graphic is [null], as after
    construction, or [undefined], as after [setDebug()]), the built-in
    callback draws nothing: it returns when [meshLength <= 0] and raises a
    TypeError on its first [strokeTriangle] when [meshLength > 0]. *)
Theorem renderDebugVerts_no_graphic src meshLength verts :
  debugGraphic src = Null ∨ debugGraphic src = Undefined →
  renderDebugVerts src meshLength verts
  = ([], if (0 <? meshLength)%Z then TypeError else Returned).
Proof.
  intros Hg. unfold renderDebugVerts.
  destruct (for_count (Z.to_nat meshLength) 6
              (renderDebugVerts_body (debugGraphic src) verts) ltac:(lia)
              (λ c st, st = ([], if c =? 0 then Returned else TypeError))
              ([], Returned))
    as (c & Hc1 & Hc2 & ->).
  - done.
  - intros c st _ ->. unfold renderDebugVerts_body.
    replace (c + 1 =? 0) with false by (symmetry; apply Nat.eqb_neq; lia).
    destruct (c =? 0); [|done]. simpl. by destruct Hg as [-> | ->].
  - f_equal. destruct (Z.ltb_spec 0 meshLength), (Nat.eqb_spec c 0);
      try done; lia.
Qed.

Lemma renderDebugVerts_no_graphic_witness :
  renderDebugVerts fresh_mesh 6 [0; 0; 4; 0; 0; 4]%Q = ([], TypeError)
  ∧ renderDebugVerts (this (setDebug Undefined Undefined fresh)) 0 []
    = ([], Returned).
Proof.
  split.
  - exact (renderDebugVerts_no_graphic fresh_mesh 6 [0; 0; 4; 0; 0; 4]%Q
             (or_introl eq_refl)).
  - exact (renderDebugVerts_no_graphic
             (this (setDebug Undefined Undefined fresh)) 0 []
             (or_intror eq_refl)).
Defined.

(** ** preDestroy and preUpdate *)

(** X14. On a live mesh [preDestroy] makes one [destroy] call on the
    animation state and returns, leaving the animation state [undefined],
    both arrays empty, both debug fields [null], and the store as
    [clearVertices] leaves it. *)
Theorem preDestroy_live s name :
  anims (this s) = Ext name →
  ∃ s', preDestroy s = (s', [anims_destroy], Returned)
    ∧ anims (this s') = Undefined
    ∧ getFaceCount s' = 0 ∧ getVertexCount s' = 0
    ∧ debugCallback (this s') = Null ∧ debugGraphic (this s') = Null
    ∧ tintFill (this s') = tintFill (this s)
    ∧ store s' = store (clearVertices s).
Proof.
  intros Ha. unfold preDestroy. rewrite Ha. eexists. split; [done|].
  by repeat split.
Qed.

Lemma preDestroy_live_witness :
  ∃ s', preDestroy one_triangle = (s', [anims_destroy], Returned)
    ∧ anims (this s') = Undefined
    ∧ getFaceCount s' = 0 ∧ getVertexCount s' = 0.
Proof.
  destruct (preDestroy_live one_triangle "AnimationState" eq_refl)
    as (s' & Hrun & Ha & Hf & Hv & _).
  exists s'. repeat split; assumption.
Defined.

(** X15. A destroyed mesh must not be used again: after a [preDestroy] that
    returned, a second [preDestroy] and every [preUpdate] raise a TypeError
    on the missing animation state, call nothing and change nothing. *)
Theorem preDestroy_then_use_throws s name :
  anims (this s) = Ext name →
  let s' := fst (fst (preDestroy s)) in
  preDestroy s' = (s', [], TypeError)
  ∧ ∀ time delta, preUpdate time delta s' = (s', [], TypeError).
Proof.
  intros Ha s'. subst s'. unfold preDestroy, preUpdate. by rewrite Ha.
Qed.

Lemma preDestroy_then_use_throws_witness :
  preDestroy (fst (fst (preDestroy one_triangle)))
  = (fst (fst (preDestroy one_triangle)), [], TypeError)
  ∧ preUpdate 16 16 (fst (fst (preDestroy one_triangle)))
    = (fst (fst (preDestroy one_triangle)), [], TypeError).
Proof.
  destruct (preDestroy_then_use_throws one_triangle "AnimationState" eq_refl)
    as [Hd Hu].
  split; [exact Hd | exact (Hu 16%Q 16%Q)].
Defined.

(** ** getFaceAt on a reachable mesh *)

Section getFaceAt_reachable.
Variable GetCalcMatrix : State → value → Matrix.
Variable contains : heap → loc → Q → Q → Matrix → bool.

(** X16. On any mesh reached from construction, [getFaceAt] reports no face
    twice and never more faces than [getFaceCount]. *)
Theorem getFaceAt_no_repeats (x y : Q) (camera : value) (s : State) :
  reachable s →
  NoDup (getFaceAt GetCalcMatrix contains x y camera s)
  ∧ length (getFaceAt GetCalcMatrix contains x y camera s) ≤ getFaceCount s.
Proof.
  intros (_ & Hnf & _)%reachable_invariant.
  unfold getFaceAt, getFaceCount. rewrite getFaceAt_loop_eq.
  split; [by apply NoDup_filter | apply length_filter].
Qed.
End getFaceAt_reachable.

Lemma getFaceAt_no_repeats_witness :
  NoDup (getFaceAt (λ _ _, identity) contains_at 1 1 Undefined one_triangle)
  ∧ length (getFaceAt (λ _ _, identity) contains_at 1 1 Undefined one_triangle)
    ≤ getFaceCount one_triangle.
Proof.
  apply getFaceAt_no_repeats.
  unfold one_triangle. apply reach_addVertices. by apply reach_new.
Defined.
